(** * A shallow embedding of [RwLockInner] (sgx_tstd/src/sys/locks/rwlock.rs)

    The reader-writer lock of the SGX trusted standard library.  Every
    mutation of the lock state happens between [self.lock.lock()] and
    [self.lock.unlock()] on the protecting spinlock; each such critical
    section is modelled as one atomic function on [RwLockInner].  A
    blocking [read] or [write] is split at the point where it releases the
    spinlock and parks: an entry section, and a retry section run every
    time the parked thread reacquires the spinlock after a wake.  Wakes
    issued on release are returned as an explicit [Wake] value; they do not
    change the lock state. *)

From Stdlib Require Import ZArith List Bool Lia.
Import ListNotations.
Local Open Scope Z_scope.

(** ** Threads and errors *)

(** [sgx_thread_t] is a [usize] handle; [SGX_THREAD_T_NULL] is [0]. *)
Definition sgx_thread_t := Z.
Definition SGX_THREAD_T_NULL : sgx_thread_t := 0.

(** errno values of [sgx_libc] (Linux numbering). *)
Definition EPERM : Z := 1.
Definition EBUSY : Z := 16.
Definition EDEADLK : Z := 35.

(** [SysError = Result<(), i32>]. *)
Inductive SysError :=
| Ok
| Err (errno : Z).

(** [u32] arithmetic as the release profile compiles [+= 1]: wrapping at
    [2^32]. *)
Definition u32_MAX : Z := 2 ^ 32 - 1.
Definition u32_add1 (x : Z) : Z := (x + 1) mod 2 ^ 32.
Definition u32_sub1 (x : Z) : Z := (x - 1) mod 2 ^ 32.

(** ** Lock state *)

(** [struct RwLockInner]; the spinlock field is the atomicity of each
    section, and [LinkedList<sgx_thread_t>] is a list, front first. *)
Record RwLockInner := mkRwLockInner {
  reader_count : Z;
  writer_waiting : Z;
  owner : sgx_thread_t;
  reader_queue : list sgx_thread_t;
  writer_queue : list sgx_thread_t
}.

(** [RwLockInner::new]. *)
Definition new : RwLockInner :=
  mkRwLockInner 0 0 SGX_THREAD_T_NULL [] [].

Definition set_reader_count (s : RwLockInner) (n : Z) : RwLockInner :=
  mkRwLockInner n (writer_waiting s) (owner s) (reader_queue s) (writer_queue s).
Definition set_owner (s : RwLockInner) (o : sgx_thread_t) : RwLockInner :=
  mkRwLockInner (reader_count s) (writer_waiting s) o (reader_queue s) (writer_queue s).
Definition set_reader_queue (s : RwLockInner) (q : list sgx_thread_t) : RwLockInner :=
  mkRwLockInner (reader_count s) (writer_waiting s) (owner s) q (writer_queue s).
Definition set_writer_queue (s : RwLockInner) (q : list sgx_thread_t) : RwLockInner :=
  mkRwLockInner (reader_count s) (writer_waiting s) (owner s) (reader_queue s) q.

(** ** LinkedList operations used by the lock *)

(** [LinkedList::push_back]. *)
Definition push_back (q : list sgx_thread_t) (t : sgx_thread_t) := q ++ [t].

(** [LinkedList::front]. *)
Definition front (q : list sgx_thread_t) : option sgx_thread_t :=
  match q with [] => None | t :: _ => Some t end.

(** [LinkedList::is_empty]. *)
Definition is_empty (q : list sgx_thread_t) : bool :=
  match q with [] => true | _ => false end.

(** [iter().position(|&waiter| waiter == current)]. *)
Fixpoint position (current : sgx_thread_t) (q : list sgx_thread_t) : option nat :=
  match q with
  | [] => None
  | w :: q' =>
      if w =? current then Some O
      else match position current q' with Some p => Some (S p) | None => None end
  end.

(** [LinkedList::remove(pos)] (only called with a position found above). *)
Fixpoint remove_at (pos : nat) (q : list sgx_thread_t) : list sgx_thread_t :=
  match q, pos with
  | [], _ => []
  | _ :: q', O => q'
  | w :: q', S p => w :: remove_at p q'
  end.

(** [if let Some(pos) = ... position(...) { queue.remove(pos); }]. *)
Definition remove_self (current : sgx_thread_t) (q : list sgx_thread_t) :=
  match position current q with
  | Some pos => remove_at pos q
  | None => q
  end.

(** ** Results of critical sections *)

(** Threads woken after the spinlock is released: none,
    [thread_set_event] on one handle, or [thread_set_multiple_events]. *)
Inductive Wake :=
| NoWake
| WakeOne (t : sgx_thread_t)
| WakeMany (ts : list sgx_thread_t).

(** A section of a blocking acquire either returns, or releases the
    spinlock and parks the thread ([thread_wait_event]). *)
Inductive Section_result :=
| Return (r : SysError) (s : RwLockInner)
| Park (s : RwLockInner).

(** ** Operations *)

(** [read], up to the first park. *)
Definition read_enter (current : sgx_thread_t) (s : RwLockInner) : Section_result :=
  if owner s =? SGX_THREAD_T_NULL then
    Return Ok (set_reader_count s (u32_add1 (reader_count s)))
  else if owner s =? current then
    Return (Err EDEADLK) s
  else
    Park (set_reader_queue s (push_back (reader_queue s) current)).

(** [read], one iteration of the loop after a wake. *)
Definition read_retry (current : sgx_thread_t) (s : RwLockInner) : Section_result :=
  if owner s =? SGX_THREAD_T_NULL then
    let s1 := set_reader_count s (u32_add1 (reader_count s)) in
    Return Ok (set_reader_queue s1 (remove_self current (reader_queue s1)))
  else Park s.

(** [try_read]. *)
Definition try_read (s : RwLockInner) : SysError * RwLockInner :=
  if owner s =? SGX_THREAD_T_NULL then
    (Ok, set_reader_count s (u32_add1 (reader_count s)))
  else (Err EBUSY, s).

(** [write], up to the first park. *)
Definition write_enter (current : sgx_thread_t) (s : RwLockInner) : Section_result :=
  if (owner s =? SGX_THREAD_T_NULL) && (reader_count s =? 0) then
    Return Ok (set_owner s current)
  else if owner s =? current then
    Return (Err EDEADLK) s
  else
    Park (set_writer_queue s (push_back (writer_queue s) current)).

(** [write], one iteration of the loop after a wake. *)
Definition write_retry (current : sgx_thread_t) (s : RwLockInner) : Section_result :=
  if (owner s =? SGX_THREAD_T_NULL) && (reader_count s =? 0) then
    let s1 := set_owner s current in
    Return Ok (set_writer_queue s1 (remove_self current (writer_queue s1)))
  else Park s.

(** [try_write]. *)
Definition try_write (current : sgx_thread_t) (s : RwLockInner) : SysError * RwLockInner :=
  if (owner s =? SGX_THREAD_T_NULL) && (reader_count s =? 0) then
    (Ok, set_owner s current)
  else (Err EBUSY, s).

(** [read_unlock]: takes no thread identity. *)
Definition read_unlock (s : RwLockInner) : SysError * RwLockInner * Wake :=
  if reader_count s =? 0 then (Err EPERM, s, NoWake)
  else
    let s1 := set_reader_count s (u32_sub1 (reader_count s)) in
    if reader_count s1 =? 0 then
      (Ok, s1, match front (writer_queue s1) with
               | Some td => WakeOne td
               | None => NoWake
               end)
    else (Ok, s1, NoWake).

(** [write_unlock]. *)
Definition write_unlock (current : sgx_thread_t) (s : RwLockInner) : SysError * RwLockInner * Wake :=
  if negb (owner s =? current) then (Err EPERM, s, NoWake)
  else
    let s1 := set_owner s SGX_THREAD_T_NULL in
    if negb (is_empty (reader_queue s1)) then
      (Ok, s1, WakeMany (reader_queue s1))
    else
      (Ok, s1, match front (writer_queue s1) with
               | Some td => WakeOne td
               | None => NoWake
               end).

(** [unlock]. *)
Definition unlock (current : sgx_thread_t) (s : RwLockInner) : SysError * RwLockInner * Wake :=
  if owner s =? current then write_unlock current s else read_unlock s.

(** [is_locked]. *)
Definition is_locked (s : RwLockInner) : bool :=
  negb (owner s =? SGX_THREAD_T_NULL)
  || negb (reader_count s =? 0)
  || negb (writer_waiting s =? 0)
  || negb (is_empty (reader_queue s))
  || negb (is_empty (writer_queue s)).

(** [destroy]: does not modify the state. *)
Definition destroy (s : RwLockInner) : SysError :=
  if is_locked s then Err EBUSY else Ok.

(** ** Blocking acquires with their wait loops

    [wakes] lists the states the parked thread finds each time it
    reacquires the spinlock after [thread_wait_event] returns; other
    threads may have changed the state arbitrarily in between.  [None]:
    the call has not returned after these wakes. *)

Fixpoint read_loop (current : sgx_thread_t) (wakes : list RwLockInner)
  : option (SysError * RwLockInner) :=
  match wakes with
  | [] => None
  | s :: wakes' =>
      match read_retry current s with
      | Return r s' => Some (r, s')
      | Park _ => read_loop current wakes'
      end
  end.

(** [read]. *)
Definition read (current : sgx_thread_t) (s : RwLockInner) (wakes : list RwLockInner)
  : option (SysError * RwLockInner) :=
  match read_enter current s with
  | Return r s' => Some (r, s')
  | Park _ => read_loop current wakes
  end.

Fixpoint write_loop (current : sgx_thread_t) (wakes : list RwLockInner)
  : option (SysError * RwLockInner) :=
  match wakes with
  | [] => None
  | s :: wakes' =>
      match write_retry current s with
      | Return r s' => Some (r, s')
      | Park _ => write_loop current wakes'
      end
  end.

(** [write]. *)
Definition write (current : sgx_thread_t) (s : RwLockInner) (wakes : list RwLockInner)
  : option (SysError * RwLockInner) :=
  match write_enter current s with
  | Return r s' => Some (r, s')
  | Park _ => write_loop current wakes
  end.

(** ** Interleavings of many threads

    Each thread is idle or parked inside [read] or [write]; a step is one
    critical section of one thread.  A parked thread may retry at any
    time (a wake, or the return of [thread_wait_event] for any other
    reason); a retry that fails parks again and changes nothing. *)

Inductive Pc := Idle | ParkedRead | ParkedWrite.

Record Sys := mkSys {
  lk : RwLockInner;
  pc : sgx_thread_t -> Pc
}.

Definition upd (f : sgx_thread_t -> Pc) (t : sgx_thread_t) (v : Pc) :=
  fun t' => if t' =? t then v else f t'.

Definition init_sys : Sys := mkSys new (fun _ => Idle).

Inductive sys_step : Sys -> Sys -> Prop :=
| step_read_return t S r s' :
    pc S t = Idle -> read_enter t (lk S) = Return r s' ->
    sys_step S (mkSys s' (pc S))
| step_read_park t S s' :
    pc S t = Idle -> read_enter t (lk S) = Park s' ->
    sys_step S (mkSys s' (upd (pc S) t ParkedRead))
| step_read_wake t S r s' :
    pc S t = ParkedRead -> read_retry t (lk S) = Return r s' ->
    sys_step S (mkSys s' (upd (pc S) t Idle))
| step_write_return t S r s' :
    pc S t = Idle -> write_enter t (lk S) = Return r s' ->
    sys_step S (mkSys s' (pc S))
| step_write_park t S s' :
    pc S t = Idle -> write_enter t (lk S) = Park s' ->
    sys_step S (mkSys s' (upd (pc S) t ParkedWrite))
| step_write_wake t S r s' :
    pc S t = ParkedWrite -> write_retry t (lk S) = Return r s' ->
    sys_step S (mkSys s' (upd (pc S) t Idle))
| step_try_read t S r s' :
    pc S t = Idle -> try_read (lk S) = (r, s') ->
    sys_step S (mkSys s' (pc S))
| step_try_write t S r s' :
    pc S t = Idle -> try_write t (lk S) = (r, s') ->
    sys_step S (mkSys s' (pc S))
| step_read_unlock t S r s' w :
    pc S t = Idle -> read_unlock (lk S) = (r, s', w) ->
    sys_step S (mkSys s' (pc S))
| step_write_unlock t S r s' w :
    pc S t = Idle -> write_unlock t (lk S) = (r, s', w) ->
    sys_step S (mkSys s' (pc S))
| step_unlock t S r s' w :
    pc S t = Idle -> unlock t (lk S) = (r, s', w) ->
    sys_step S (mkSys s' (pc S))
| step_destroy t S :
    pc S t = Idle -> sys_step S S.

Inductive reachable : Sys -> Prop :=
| reach_init : reachable init_sys
| reach_step S S' : reachable S -> sys_step S S' -> reachable S'.

(** ** Teardown of [RwLock] *)

(** [impl Drop for RwLock]: [let r = self.destroy();
    debug_assert_eq!(r, Ok(()))]; [true] when the assertion holds. *)
Definition rwlock_drop (s : RwLockInner) : bool :=
  match destroy s with Ok => true | Err _ => false end.

(** What [<RwLock as LazyInit>::destroy] does with the boxed lock: leak it
    with [mem::forget], or let the box drop, which runs [rwlock_drop]. *)
Inductive Teardown :=
| Leaked
| Dropped (assert_ok : bool).

(** [<RwLock as LazyInit>::destroy]. *)
Definition lazy_destroy (s : RwLockInner) : Teardown :=
  if is_locked s then Leaked else Dropped (rwlock_drop s).

(** ** Wake-ups followed by retries *)

(** The threads [ts] retry [read] one after the other, each after the
    previous one returned; [None] as soon as one of them parks again. *)
Fixpoint retry_readers (ts : list sgx_thread_t) (s : RwLockInner) : option RwLockInner :=
  match ts with
  | [] => Some s
  | t :: ts' =>
      match read_retry t s with
      | Return _ s' => retry_readers ts' s'
      | Park _ => None
      end
  end.

(** ** Small runs *)

Example try_read_free : try_read new = (Ok, mkRwLockInner 1 0 0 [] []).
Proof. reflexivity. Qed.

Example write_then_read_parks :
  read_enter 7 (snd (try_write 5 new)) = Park (mkRwLockInner 0 0 5 [7] []).
Proof. reflexivity. Qed.

Example write_unlock_broadcast :
  write_unlock 5 (mkRwLockInner 0 0 5 [7; 8] [9])
  = (Ok, mkRwLockInner 0 0 0 [7; 8] [9], WakeMany [7; 8]).
Proof. reflexivity. Qed.

Example read_retry_dequeues :
  read_retry 8 (mkRwLockInner 0 0 0 [7; 8] [9])
  = Return Ok (mkRwLockInner 1 0 0 [7] [9]).
Proof. reflexivity. Qed.

Example try_read_wraps :
  try_read (mkRwLockInner u32_MAX 0 0 [] []) = (Ok, mkRwLockInner 0 0 0 [] []).
Proof. reflexivity. Qed.

(** ** Proof support *)

(** Case analysis on every [=?] test of a goal. *)
Ltac split_tests :=
  repeat match goal with
  | |- context [?a =? ?b] => destruct (Z.eqb_spec a b)
  | H : context [?a =? ?b] |- _ => destruct (Z.eqb_spec a b)
  end.

Lemma u32_add1_range x : 0 <= u32_add1 x <= u32_MAX.
Proof.
  unfold u32_add1, u32_MAX.
  pose proof (Z.mod_pos_bound (x + 1) (2 ^ 32)). lia.
Qed.

Lemma u32_add1_small x : 0 <= x < u32_MAX -> u32_add1 x = x + 1.
Proof. unfold u32_add1, u32_MAX. intros. apply Z.mod_small. lia. Qed.

Lemma u32_add1_max : u32_add1 u32_MAX = 0.
Proof. reflexivity. Qed.

Lemma u32_sub1_pos x : 0 < x <= u32_MAX -> u32_sub1 x = x - 1.
Proof. unfold u32_sub1, u32_MAX. intros. apply Z.mod_small. lia. Qed.

(** The state invariant: the reader count is a [u32], an owner excludes
    readers, and [writer_waiting] stays [0]. *)
Definition rw_inv (s : RwLockInner) : Prop :=
  0 <= reader_count s <= u32_MAX
  /\ (owner s <> SGX_THREAD_T_NULL -> reader_count s = 0)
  /\ writer_waiting s = 0.

Definition section_state (r : Section_result) : RwLockInner :=
  match r with Return _ s => s | Park s => s end.

Lemma rw_inv_new : rw_inv new.
Proof. unfold rw_inv, new, u32_MAX; simpl; repeat split; try lia; congruence. Qed.

Ltac inv_solve :=
  intros; unfold rw_inv in *; simpl in *; split_tests; simpl in *;
  repeat match goal with H : _ /\ _ |- _ => destruct H end;
  repeat split; simpl; try lia;
  try (match goal with |- context [u32_add1 ?x] =>
         pose proof (u32_add1_range x) end; lia);
  try (rewrite u32_sub1_pos; lia);
  try (intros; lia); try (intros; congruence).

Lemma read_enter_inv c s : rw_inv s -> rw_inv (section_state (read_enter c s)).
Proof. unfold read_enter. inv_solve. Qed.

Lemma read_retry_inv c s : rw_inv s -> rw_inv (section_state (read_retry c s)).
Proof. unfold read_retry. inv_solve. Qed.

Lemma write_enter_inv c s : rw_inv s -> rw_inv (section_state (write_enter c s)).
Proof. unfold write_enter. destruct s as [n w o rq wq]; simpl. inv_solve. Qed.

Lemma write_retry_inv c s : rw_inv s -> rw_inv (section_state (write_retry c s)).
Proof. unfold write_retry. destruct s as [n w o rq wq]; simpl. inv_solve. Qed.

Lemma try_read_inv s : rw_inv s -> rw_inv (snd (try_read s)).
Proof. unfold try_read. inv_solve. Qed.

Lemma try_write_inv c s : rw_inv s -> rw_inv (snd (try_write c s)).
Proof. unfold try_write. destruct s as [n w o rq wq]; simpl. inv_solve. Qed.

Lemma read_unlock_inv s : rw_inv s -> rw_inv (snd (fst (read_unlock s))).
Proof.
  unfold read_unlock. destruct s as [n w o rq wq]; simpl. inv_solve.
  all: intros; rewrite u32_sub1_pos in *; lia.
Qed.

Lemma write_unlock_inv c s : rw_inv s -> rw_inv (snd (fst (write_unlock c s))).
Proof.
  unfold write_unlock. destruct s as [n w o rq wq]; simpl.
  destruct rq; inv_solve.
Qed.

Lemma unlock_inv c s : rw_inv s -> rw_inv (snd (fst (unlock c s))).
Proof.
  unfold unlock. destruct (owner s =? c).
  - apply write_unlock_inv.
  - apply read_unlock_inv.
Qed.

Lemma sys_step_inv S S' : rw_inv (lk S) -> sys_step S S' -> rw_inv (lk S').
Proof.
  intros H Hs; destruct Hs; simpl; try assumption.
  all: repeat match goal with
       | E : read_enter _ _ = _ |- _ =>
           pose proof (read_enter_inv t _ H) as Hi; rewrite E in Hi
       | E : read_retry _ _ = _ |- _ =>
           pose proof (read_retry_inv t _ H) as Hi; rewrite E in Hi
       | E : write_enter _ _ = _ |- _ =>
           pose proof (write_enter_inv t _ H) as Hi; rewrite E in Hi
       | E : write_retry _ _ = _ |- _ =>
           pose proof (write_retry_inv t _ H) as Hi; rewrite E in Hi
       | E : try_read _ = _ |- _ =>
           pose proof (try_read_inv _ H) as Hi; rewrite E in Hi
       | E : try_write _ _ = _ |- _ =>
           pose proof (try_write_inv t _ H) as Hi; rewrite E in Hi
       | E : read_unlock _ = _ |- _ =>
           pose proof (read_unlock_inv _ H) as Hi; rewrite E in Hi
       | E : write_unlock _ _ = _ |- _ =>
           pose proof (write_unlock_inv t _ H) as Hi; rewrite E in Hi
       | E : unlock _ _ = _ |- _ =>
           pose proof (unlock_inv t _ H) as Hi; rewrite E in Hi
       end; exact Hi.
Qed.

Lemma reachable_inv S : reachable S -> rw_inv (lk S).
Proof.
  induction 1.
  - exact rw_inv_new.
  - eapply sys_step_inv; eassumption.
Qed.

Lemma read_loop_ok c wakes r s' : read_loop c wakes = Some (r, s') -> r = Ok.
Proof.
  induction wakes as [|s ws IH]; simpl; [discriminate|].
  unfold read_retry. destruct (owner s =? SGX_THREAD_T_NULL).
  - congruence.
  - exact IH.
Qed.

Lemma write_loop_ok c wakes r s' : write_loop c wakes = Some (r, s') -> r = Ok.
Proof.
  induction wakes as [|s ws IH]; simpl; [discriminate|].
  unfold write_retry.
  destruct ((owner s =? SGX_THREAD_T_NULL) && (reader_count s =? 0)).
  - congruence.
  - exact IH.
Qed.

Definition nonquiescent (s : RwLockInner) : Prop :=
  owner s <> SGX_THREAD_T_NULL \/ reader_count s > 0
  \/ reader_queue s <> [] \/ writer_queue s <> [].

(** [writer_waiting] is never written by a section. *)
Ltac ww_solve :=
  intros; repeat match goal with s : RwLockInner |- _ => destruct s end;
  repeat match goal with
  | |- context [match ?q with [] => _ | _ :: _ => _ end] =>
      match type of q with list _ => destruct q end
  | |- context [if ?b then _ else _] => destruct b
  end; reflexivity.

Lemma read_enter_ww c s :
  writer_waiting (section_state (read_enter c s)) = writer_waiting s.
Proof. unfold read_enter. ww_solve. Qed.

Lemma read_retry_ww c s :
  writer_waiting (section_state (read_retry c s)) = writer_waiting s.
Proof. unfold read_retry. ww_solve. Qed.

Lemma write_enter_ww c s :
  writer_waiting (section_state (write_enter c s)) = writer_waiting s.
Proof. unfold write_enter. ww_solve. Qed.

Lemma write_retry_ww c s :
  writer_waiting (section_state (write_retry c s)) = writer_waiting s.
Proof. unfold write_retry. ww_solve. Qed.

Lemma try_read_ww s : writer_waiting (snd (try_read s)) = writer_waiting s.
Proof. unfold try_read. ww_solve. Qed.

Lemma try_write_ww c s : writer_waiting (snd (try_write c s)) = writer_waiting s.
Proof. unfold try_write. ww_solve. Qed.

Lemma read_unlock_ww s :
  writer_waiting (snd (fst (read_unlock s))) = writer_waiting s.
Proof. unfold read_unlock. ww_solve. Qed.

Lemma write_unlock_ww c s :
  writer_waiting (snd (fst (write_unlock c s))) = writer_waiting s.
Proof. unfold write_unlock. ww_solve. Qed.

Lemma unlock_ww c s :
  writer_waiting (snd (fst (unlock c s))) = writer_waiting s.
Proof.
  unfold unlock. destruct (owner s =? c);
  [apply write_unlock_ww|apply read_unlock_ww].
Qed.

Lemma sys_step_writer_waiting S S' :
  sys_step S S' -> writer_waiting (lk S') = writer_waiting (lk S).
Proof.
  destruct 1; simpl; try reflexivity.
  all: repeat match goal with
       | E : read_enter _ _ = _ |- _ =>
           pose proof (read_enter_ww t (lk S)) as Hw; rewrite E in Hw
       | E : read_retry _ _ = _ |- _ =>
           pose proof (read_retry_ww t (lk S)) as Hw; rewrite E in Hw
       | E : write_enter _ _ = _ |- _ =>
           pose proof (write_enter_ww t (lk S)) as Hw; rewrite E in Hw
       | E : write_retry _ _ = _ |- _ =>
           pose proof (write_retry_ww t (lk S)) as Hw; rewrite E in Hw
       | E : try_read _ = _ |- _ =>
           pose proof (try_read_ww (lk S)) as Hw; rewrite E in Hw
       | E : try_write _ _ = _ |- _ =>
           pose proof (try_write_ww t (lk S)) as Hw; rewrite E in Hw
       | E : read_unlock _ = _ |- _ =>
           pose proof (read_unlock_ww (lk S)) as Hw; rewrite E in Hw
       | E : write_unlock _ _ = _ |- _ =>
           pose proof (write_unlock_ww t (lk S)) as Hw; rewrite E in Hw
       | E : unlock _ _ = _ |- _ =>
           pose proof (unlock_ww t (lk S)) as Hw; rewrite E in Hw
       end; exact Hw.
Qed.

Lemma is_locked_nonquiescent s :
  writer_waiting s = 0 -> 0 <= reader_count s ->
  (is_locked s = true <-> nonquiescent s).
Proof.
  destruct s as [n w o rq wq]; unfold is_locked, nonquiescent; simpl.
  intros -> Hn. rewrite Z.eqb_refl. simpl.
  destruct (Z.eqb_spec o SGX_THREAD_T_NULL); destruct (Z.eqb_spec n 0);
  destruct rq, wq; simpl; split; intros H; try reflexivity;
  try discriminate; try tauto; try (left; assumption);
  try (right; left; lia); try (right; right; left; discriminate);
  try (right; right; right; discriminate).
  all: repeat destruct H as [H|H]; try lia; try congruence.
Qed.

(** Thread 5 takes the lock with [try_write], thread 7 parks in [read]. *)
Lemma reachable_held :
  reachable (mkSys (mkRwLockInner 0 0 5 [7] [])
                   (upd (fun _ => Idle) 7 ParkedRead)).
Proof.
  assert (H1 : reachable (mkSys (mkRwLockInner 0 0 5 [] []) (fun _ => Idle))).
  { apply (reach_step init_sys); [exact reach_init|].
    apply (step_try_write 5 init_sys Ok); reflexivity. }
  apply (reach_step _ _ H1).
  apply (step_read_park 7 (mkSys (mkRwLockInner 0 0 5 [] []) (fun _ => Idle))
           (mkRwLockInner 0 0 5 [7] [])); reflexivity.
Qed.

(** [k] successive [try_read] calls from an idle lock. *)
Lemma reachable_readers (k : nat) :
  Z.of_nat k <= u32_MAX ->
  reachable (mkSys (mkRwLockInner (Z.of_nat k) 0 0 [] []) (fun _ => Idle)).
Proof.
  induction k as [|k IH]; intros Hk.
  - exact reach_init.
  - rewrite Nat2Z.inj_succ in *.
    apply (reach_step _ _ (IH ltac:(lia))).
    replace (Z.succ (Z.of_nat k)) with (u32_add1 (Z.of_nat k))
      by (rewrite u32_add1_small; lia).
    apply (step_try_read 1 (mkSys (mkRwLockInner (Z.of_nat k) 0 0 [] []) (fun _ => Idle)) Ok);
    reflexivity.
Qed.

Lemma reachable_max_readers :
  reachable (mkSys (mkRwLockInner u32_MAX 0 0 [] []) (fun _ => Idle)).
Proof.
  assert (H : 0 <= u32_MAX) by (unfold u32_MAX; lia).
  pose proof (reachable_readers (Z.to_nat u32_MAX)) as R.
  rewrite Z2Nat.id in R by exact H.
  exact (R (Z.le_refl _)).
Qed.

(** ** Claims *)

(** C1. Mutual exclusion: in every state reachable by any interleaving of
    [read], [try_read], [write], [try_write], [read_unlock], [write_unlock],
    [unlock] and [destroy], an owner excludes readers and readers exclude
    an owner. *)
Theorem mutual_exclusion S :
  reachable S ->
  (owner (lk S) <> SGX_THREAD_T_NULL -> reader_count (lk S) = 0)
  /\ (reader_count (lk S) > 0 -> owner (lk S) = SGX_THREAD_T_NULL).
Proof.
  intros HS. destruct (reachable_inv S HS) as [_ [Ho _]].
  split; [exact Ho|].
  intros Hr. destruct (Z.eq_dec (owner (lk S)) SGX_THREAD_T_NULL) as [E|E].
  - exact E.
  - specialize (Ho E). lia.
Qed.

(** Thread 5 holds the lock exclusively, thread 7 is parked in [read]. *)
Lemma mutual_exclusion_witness :
  reachable (mkSys (mkRwLockInner 0 0 5 [7] [])
                   (upd (fun _ => Idle) 7 ParkedRead))
  /\ (5 <> SGX_THREAD_T_NULL -> 0 = 0) /\ (0 > 0 -> 5 = SGX_THREAD_T_NULL).
Proof.
  split; [exact reachable_held|].
  exact (mutual_exclusion _ reachable_held).
Defined.

(** C2. [write_unlock] fails with [EPERM], changing nothing, unless the
    caller is the owner; otherwise it clears [owner] and wakes every queued
    reader if there is one, else the head of [writer_queue] only, and
    succeeds. *)
Theorem write_unlock_spec current s :
  (owner s <> current -> write_unlock current s = (Err EPERM, s, NoWake))
  /\ (owner s = current ->
      write_unlock current s
      = (Ok, set_owner s SGX_THREAD_T_NULL,
         match reader_queue s with
         | [] => match writer_queue s with
                 | [] => NoWake
                 | w :: _ => WakeOne w
                 end
         | _ :: _ => WakeMany (reader_queue s)
         end)).
Proof.
  unfold write_unlock. split; intros H.
  - destruct (Z.eqb_spec (owner s) current); [contradiction|reflexivity].
  - rewrite H, Z.eqb_refl. simpl.
    destruct s as [n w o rq wq]; simpl.
    destruct rq; simpl; [destruct wq|]; reflexivity.
Qed.

(** C3. [read_unlock] takes no caller identity: it fails with [EPERM],
    changing nothing, when [reader_count] is [0]; otherwise it decrements
    [reader_count] by one and succeeds, waking the head of [writer_queue]
    (left in the queue) when the count reaches [0], and nobody otherwise.
    [unlock] from any non-owner is the same [read_unlock]. *)
Theorem read_unlock_spec s :
  (reader_count s = 0 -> read_unlock s = (Err EPERM, s, NoWake))
  /\ (0 < reader_count s <= u32_MAX ->
      read_unlock s
      = (Ok, set_reader_count s (reader_count s - 1),
         if reader_count s - 1 =? 0 then
           match writer_queue s with
           | [] => NoWake
           | w :: _ => WakeOne w
           end
         else NoWake))
  /\ (forall c1 c2, owner s <> c1 -> owner s <> c2 -> unlock c1 s = unlock c2 s).
Proof.
  split; [|split].
  - intros H. unfold read_unlock. rewrite H. reflexivity.
  - intros H. unfold read_unlock.
    destruct (Z.eqb_spec (reader_count s) 0); [lia|].
    rewrite u32_sub1_pos by lia. simpl.
    destruct (reader_count s - 1 =? 0); [destruct (writer_queue s)|]; reflexivity.
  - intros c1 c2 H1 H2. unfold unlock.
    destruct (Z.eqb_spec (owner s) c1); [contradiction|].
    destruct (Z.eqb_spec (owner s) c2); [contradiction|].
    reflexivity.
Qed.

(** C5. [try_write] succeeds exactly when there is no owner and no reader,
    setting [owner] to the caller; otherwise it returns [EBUSY].  It has no
    wait loop. *)
Theorem try_write_spec current s :
  (fst (try_write current s) = Ok
   <-> owner s = SGX_THREAD_T_NULL /\ reader_count s = 0)
  /\ (owner s = SGX_THREAD_T_NULL /\ reader_count s = 0 ->
      try_write current s = (Ok, set_owner s current))
  /\ (~ (owner s = SGX_THREAD_T_NULL /\ reader_count s = 0) ->
      try_write current s = (Err EBUSY, s)).
Proof.
  unfold try_write.
  destruct (Z.eqb_spec (owner s) SGX_THREAD_T_NULL);
  destruct (Z.eqb_spec (reader_count s) 0); simpl;
  repeat split; intros; try tauto; try discriminate.
Qed.

(** C4.  The failing input: [reader_count = u32::MAX] with no owner, a
    state reached by [u32::MAX] calls of [try_read].  The unchecked
    [reader_count += 1] of [try_read] wraps the count to [0] instead of
    adding one (a debug build panics there), and a [try_write] then
    succeeds although every read hold is still outstanding. *)
Theorem try_read_overflow_wraps :
  reachable (mkSys (mkRwLockInner u32_MAX 0 0 [] []) (fun _ => Idle))
  /\ try_read (mkRwLockInner u32_MAX 0 0 [] []) = (Ok, mkRwLockInner 0 0 0 [] [])
  /\ try_write 5 (mkRwLockInner 0 0 0 [] []) = (Ok, mkRwLockInner 0 0 5 [] []).
Proof.
  split; [exact reachable_max_readers|]. split; reflexivity.
Qed.

(** C6.  The same unchecked [reader_count += 1], in the first section of
    [read]: entered with [reader_count = u32::MAX] and no owner, [read]
    succeeds with the count wrapped to [0], and a blocking [write] then
    takes the lock at once. *)
Theorem read_overflow_wraps :
  reachable (mkSys (mkRwLockInner u32_MAX 0 0 [] []) (fun _ => Idle))
  /\ read 7 (mkRwLockInner u32_MAX 0 0 [] []) [] = Some (Ok, mkRwLockInner 0 0 0 [] [])
  /\ write 5 (mkRwLockInner 0 0 0 [] []) [] = Some (Ok, mkRwLockInner 0 0 5 [] []).
Proof.
  split; [exact reachable_max_readers|]. split; reflexivity.
Qed.

(** C7. For a real thread (never [SGX_THREAD_T_NULL]), blocking [read] and
    [write] return [EDEADLK] exactly when the caller is the owner at entry,
    and [EDEADLK] is the only error either can return, whatever happens
    while the caller is parked. *)
Theorem blocking_acquire_errors current s wakes :
  current <> SGX_THREAD_T_NULL ->
  (forall r s', read current s wakes = Some (r, s') ->
     (r = Err EDEADLK <-> owner s = current) /\ (r = Ok \/ r = Err EDEADLK))
  /\ (owner s = current -> read current s wakes = Some (Err EDEADLK, s))
  /\ (forall r s', write current s wakes = Some (r, s') ->
     (r = Err EDEADLK <-> owner s = current) /\ (r = Ok \/ r = Err EDEADLK))
  /\ (owner s = current -> write current s wakes = Some (Err EDEADLK, s)).
Proof.
  intros Hc. unfold read, write, read_enter, write_enter.
  split; [|split; [|split]].
  - intros r s'.
    destruct (Z.eqb_spec (owner s) SGX_THREAD_T_NULL) as [E|E].
    + intros H; injection H as <- _. split; [|left; reflexivity].
      split; [discriminate|]. intros. congruence.
    + destruct (Z.eqb_spec (owner s) current) as [F|F].
      * intros H; injection H as <- _. split; [tauto|right; reflexivity].
      * intros H. apply read_loop_ok in H as ->.
        split; [split; [discriminate|tauto]|left; reflexivity].
  - intros <-. destruct (Z.eqb_spec (owner s) SGX_THREAD_T_NULL); [contradiction|].
    rewrite Z.eqb_refl. reflexivity.
  - intros r s'.
    destruct (Z.eqb_spec (owner s) SGX_THREAD_T_NULL) as [E|E]; simpl;
    [destruct (Z.eqb_spec (reader_count s) 0)|]; simpl.
    + intros H; injection H as <- _. split; [|left; reflexivity].
      split; [discriminate|]. intros. congruence.
    + destruct (Z.eqb_spec (owner s) current) as [F|F]; [congruence|].
      intros H. apply write_loop_ok in H as ->.
      split; [split; [discriminate|tauto]|left; reflexivity].
    + destruct (Z.eqb_spec (owner s) current) as [F|F].
      * intros H; injection H as <- _. split; [tauto|right; reflexivity].
      * intros H. apply write_loop_ok in H as ->.
        split; [split; [discriminate|tauto]|left; reflexivity].
  - intros <-. destruct (Z.eqb_spec (owner s) SGX_THREAD_T_NULL); [contradiction|].
    simpl. rewrite Z.eqb_refl. reflexivity.
Qed.

(** Thread 5 holds the lock exclusively and calls [read] and [write]. *)
Lemma blocking_acquire_errors_witness :
  5 <> SGX_THREAD_T_NULL
  /\ read 5 (mkRwLockInner 0 0 5 [] []) [] = Some (Err EDEADLK, mkRwLockInner 0 0 5 [] [])
  /\ write 5 (mkRwLockInner 0 0 5 [] []) [] = Some (Err EDEADLK, mkRwLockInner 0 0 5 [] []).
Proof.
  assert (Hc : 5 <> SGX_THREAD_T_NULL) by discriminate.
  destruct (blocking_acquire_errors 5 (mkRwLockInner 0 0 5 [] []) [] Hc)
    as [_ [Hr [_ Hw]]].
  split; [exact Hc|]. split; [apply Hr|apply Hw]; reflexivity.
Defined.

(** C8. On every reachable state, [destroy] returns [EBUSY] exactly when the
    lock is non-quiescent (an owner, a reader, or a queued waiter) and
    succeeds otherwise; [is_locked] is true exactly then. *)
Theorem destroy_spec S :
  reachable S ->
  (destroy (lk S) = Err EBUSY <-> nonquiescent (lk S))
  /\ (destroy (lk S) = Ok <-> ~ nonquiescent (lk S))
  /\ (is_locked (lk S) = true <-> nonquiescent (lk S)).
Proof.
  intros HS. destruct (reachable_inv S HS) as [[Hn _] [_ Hw]].
  pose proof (is_locked_nonquiescent (lk S) Hw Hn) as Hl.
  unfold destroy.
  destruct (is_locked (lk S)).
  - split; [|split]; [split; [tauto|reflexivity]| |exact Hl].
    split; [discriminate|]. intros H. exfalso. apply H, Hl. reflexivity.
  - split; [|split]; [|split|exact Hl].
    + split; [discriminate|]. intros H. apply Hl in H. discriminate.
    + intros _ H. apply Hl in H. discriminate.
    + reflexivity.
Qed.

Lemma destroy_spec_witness :
  destroy (mkRwLockInner 0 0 5 [7] []) = Err EBUSY
  /\ nonquiescent (mkRwLockInner 0 0 5 [7] []).
Proof.
  destruct (destroy_spec _ reachable_held) as [H _].
  split; [reflexivity|]. apply H. reflexivity.
Defined.

(** C9. [RwLockInner::new] sets [writer_waiting] to [0] and no section of
    any operation writes it, so it is [0] in every reachable state, and
    [is_locked] there is true only through one of its other four tests. *)
Theorem writer_waiting_unused :
  writer_waiting new = 0
  /\ (forall S S', sys_step S S' -> writer_waiting (lk S') = writer_waiting (lk S))
  /\ (forall S, reachable S ->
        writer_waiting (lk S) = 0
        /\ (is_locked (lk S) = true ->
            owner (lk S) <> SGX_THREAD_T_NULL \/ reader_count (lk S) <> 0
            \/ reader_queue (lk S) <> [] \/ writer_queue (lk S) <> [])).
Proof.
  split; [reflexivity|]. split; [exact sys_step_writer_waiting|].
  intros S HS. induction HS as [|S S' HS IH Hs].
  - split; [reflexivity|]. discriminate.
  - destruct IH as [IHw _].
    assert (Hw : writer_waiting (lk S') = 0).
    { rewrite (sys_step_writer_waiting S S' Hs). exact IHw. }
    split; [exact Hw|].
    destruct (lk S') as [n w o rq wq]; simpl in *; subst w.
    unfold is_locked; simpl.
    destruct (Z.eqb_spec o SGX_THREAD_T_NULL); [|left; assumption].
    destruct (Z.eqb_spec n 0); [|right; left; assumption].
    destruct rq; [|right; right; left; discriminate].
    destruct wq; [discriminate|right; right; right; discriminate].
Qed.

(** C10. Every error leaves the lock state exactly as it was at entry:
    [try_read] and [try_write] ([EBUSY]), [read_unlock] and [write_unlock]
    ([EPERM]), [unlock], blocking [read] and [write] ([EDEADLK]), and
    [destroy] ([EBUSY]), which returns no state because it writes none. *)
Theorem errors_leave_state current s wakes :
  (forall e s', try_read s = (Err e, s') -> e = EBUSY /\ s' = s)
  /\ (forall e s', try_write current s = (Err e, s') -> e = EBUSY /\ s' = s)
  /\ (forall e s' w, read_unlock s = (Err e, s', w) -> e = EPERM /\ s' = s)
  /\ (forall e s' w, write_unlock current s = (Err e, s', w) -> e = EPERM /\ s' = s)
  /\ (forall e s' w, unlock current s = (Err e, s', w) -> e = EPERM /\ s' = s)
  /\ (forall e s', read current s wakes = Some (Err e, s') -> e = EDEADLK /\ s' = s)
  /\ (forall e s', write current s wakes = Some (Err e, s') -> e = EDEADLK /\ s' = s)
  /\ (forall e, destroy s = Err e -> e = EBUSY).
Proof.
  assert (RU : forall e s' w, read_unlock s = (Err e, s', w) -> e = EPERM /\ s' = s).
  { unfold read_unlock. intros e s' w.
    destruct (reader_count s =? 0); [intros H; injection H; auto|].
    destruct (_ =? 0); [destruct (front _)|]; discriminate. }
  assert (WU : forall e s' w, write_unlock current s = (Err e, s', w) -> e = EPERM /\ s' = s).
  { unfold write_unlock. intros e s' w.
    destruct (owner s =? current); simpl; [|intros H; injection H; auto].
    destruct (is_empty _); simpl; [destruct (front _)|]; discriminate. }
  split; [|split; [|split; [exact RU|split; [exact WU|split; [|split; [|split]]]]]].
  - unfold try_read. intros e s'. destruct (_ =? _);
    [discriminate|intros H; injection H; auto].
  - unfold try_write. intros e s'. destruct (_ && _);
    [discriminate|intros H; injection H; auto].
  - unfold unlock. intros e s' w. destruct (owner s =? current); [apply WU|apply RU].
  - unfold read, read_enter. intros e s'.
    destruct (owner s =? SGX_THREAD_T_NULL); [discriminate|].
    destruct (owner s =? current); [intros H; injection H; auto|].
    intros H. apply read_loop_ok in H. discriminate.
  - unfold write, write_enter. intros e s'.
    destruct (_ && _); [discriminate|].
    destruct (owner s =? current); [intros H; injection H; auto|].
    intros H. apply write_loop_ok in H. discriminate.
  - unfold destroy. intros e. destruct (is_locked s);
    [intros H; injection H; auto|discriminate].
Qed.

(** ** Further properties of the lock *)

Lemma remove_at_position c q :
  NoDup q -> forall pos, position c q = Some pos ->
  NoDup (remove_at pos q) /\ (forall x, In x (remove_at pos q) <-> In x q /\ x <> c).
Proof.
  induction q as [|w q IH]; simpl; intros Hnd pos Hp; [discriminate|].
  inversion Hnd as [|? ? Hw Hq]; subst.
  destruct (Z.eqb_spec w c) as [->|Hne].
  - injection Hp as <-. simpl. split; [exact Hq|].
    intros x; split.
    + intros Hx. split; [right; exact Hx|]. intros ->. contradiction.
    + intros [[->|Hx] Hc]; [contradiction|exact Hx].
  - destruct (position c q) as [p|] eqn:Ep; [|discriminate].
    injection Hp as <-. simpl.
    destruct (IH Hq p eq_refl) as [Hnd' Hin].
    split.
    + constructor; [|exact Hnd']. rewrite Hin. tauto.
    + intros x. rewrite Hin. split.
      * intros [->|[Hx Hc]]; [split; [left; reflexivity|exact Hne]|].
        split; [right; exact Hx|exact Hc].
      * intros [[->|Hx] Hc]; [left; reflexivity|right; tauto].
Qed.

Lemma position_none c q : position c q = None -> ~ In c q.
Proof.
  induction q as [|w q IH]; simpl; [tauto|].
  destruct (Z.eqb_spec w c); [discriminate|].
  destruct (position c q); [discriminate|].
  intros _ [->|H]; [contradiction|exact (IH eq_refl H)].
Qed.

(** Removing the caller from a duplicate-free queue. *)
Lemma remove_self_spec c q :
  NoDup q ->
  NoDup (remove_self c q) /\ (forall x, In x (remove_self c q) <-> In x q /\ x <> c).
Proof.
  intros Hnd. unfold remove_self.
  destruct (position c q) as [p|] eqn:Ep.
  - exact (remove_at_position c q Hnd p Ep).
  - split; [exact Hnd|]. intros x; split; [|tauto].
    intros Hx. split; [exact Hx|]. intros ->. exact (position_none c q Ep Hx).
Qed.

Lemma push_back_spec q t :
  NoDup q -> ~ In t q ->
  NoDup (push_back q t) /\ (forall x, In x (push_back q t) <-> In x q \/ x = t).
Proof.
  intros Hnd Ht. unfold push_back. split.
  - apply NoDup_app; [exact Hnd|constructor; [tauto|constructor]|].
    intros x Hx [<-|[]]. contradiction.
  - intros x. rewrite in_app_iff. simpl. intuition.
Qed.

(** Queues hold exactly the parked threads, each once; the exclusive
    holder is never parked. *)
Definition sys_inv (S : Sys) : Prop :=
  NoDup (reader_queue (lk S)) /\ NoDup (writer_queue (lk S))
  /\ (forall t, In t (reader_queue (lk S)) <-> pc S t = ParkedRead)
  /\ (forall t, In t (writer_queue (lk S)) <-> pc S t = ParkedWrite)
  /\ (owner (lk S) <> SGX_THREAD_T_NULL -> pc S (owner (lk S)) = Idle).

Lemma upd_eq f t v x : upd f t v x = if x =? t then v else f x.
Proof. reflexivity. Qed.

Ltac sys_inv_case :=
  repeat match goal with H : _ /\ _ |- _ => destruct H end;
  simpl in *;
  repeat split; intros;
  repeat rewrite upd_eq in *;
  repeat match goal with
         | |- context [?a =? ?b] => destruct (Z.eqb_spec a b); subst
         | H : context [?a =? ?b] |- _ => destruct (Z.eqb_spec a b); subst
         end;
  try congruence; eauto.

(** Effect of each section on the queues and the owner. *)
Ltac effect_solve :=
  intros; repeat match goal with s : RwLockInner |- _ => destruct s end;
  repeat (match goal with
  | H : context [?a =? ?b] |- _ => destruct (Z.eqb_spec a b)
  | H : context [is_empty ?q] |- _ => is_var q; destruct q
  | H : context [front ?q] |- _ => is_var q; destruct q
  end; simpl in *);
  try discriminate;
  repeat match goal with
  | H : (_, _) = (_, _) |- _ => injection H as <- <-
  | H : (_, _, _) = (_, _, _) |- _ => injection H as <- <- <-
  | H : Return _ _ = Return _ _ |- _ => injection H as <- <-
  | H : Park _ = Park _ |- _ => injection H as <-
  end; simpl; subst; auto 6.

Lemma read_enter_return c s r s' : read_enter c s = Return r s' ->
  reader_queue s' = reader_queue s /\ writer_queue s' = writer_queue s /\ owner s' = owner s.
Proof. unfold read_enter. effect_solve. Qed.

Lemma read_enter_park c s s' : read_enter c s = Park s' ->
  reader_queue s' = push_back (reader_queue s) c /\ writer_queue s' = writer_queue s
  /\ owner s' = owner s /\ owner s <> SGX_THREAD_T_NULL /\ owner s <> c.
Proof. unfold read_enter. effect_solve. Qed.

Lemma read_retry_return c s r s' : read_retry c s = Return r s' ->
  reader_queue s' = remove_self c (reader_queue s) /\ writer_queue s' = writer_queue s
  /\ owner s' = owner s.
Proof. unfold read_retry. effect_solve. Qed.

Lemma write_enter_return c s r s' : write_enter c s = Return r s' ->
  reader_queue s' = reader_queue s /\ writer_queue s' = writer_queue s
  /\ (owner s' = owner s \/ owner s' = c).
Proof. unfold write_enter. effect_solve. Qed.

Lemma write_enter_park c s s' : write_enter c s = Park s' ->
  reader_queue s' = reader_queue s /\ writer_queue s' = push_back (writer_queue s) c
  /\ owner s' = owner s /\ owner s <> c.
Proof. unfold write_enter. effect_solve. Qed.

Lemma write_retry_return c s r s' : write_retry c s = Return r s' ->
  reader_queue s' = reader_queue s /\ writer_queue s' = remove_self c (writer_queue s)
  /\ owner s' = c.
Proof. unfold write_retry. effect_solve. Qed.

Lemma try_read_effect s r s' : try_read s = (r, s') ->
  reader_queue s' = reader_queue s /\ writer_queue s' = writer_queue s /\ owner s' = owner s.
Proof. unfold try_read. effect_solve. Qed.

Lemma try_write_effect c s r s' : try_write c s = (r, s') ->
  reader_queue s' = reader_queue s /\ writer_queue s' = writer_queue s
  /\ (owner s' = owner s \/ owner s' = c).
Proof. unfold try_write. effect_solve. Qed.

Lemma read_unlock_effect s r s' w : read_unlock s = (r, s', w) ->
  reader_queue s' = reader_queue s /\ writer_queue s' = writer_queue s /\ owner s' = owner s.
Proof. unfold read_unlock. effect_solve. Qed.

Lemma write_unlock_effect c s r s' w : write_unlock c s = (r, s', w) ->
  reader_queue s' = reader_queue s /\ writer_queue s' = writer_queue s
  /\ (owner s' = owner s \/ owner s' = SGX_THREAD_T_NULL).
Proof. unfold write_unlock. effect_solve. Qed.

Lemma unlock_effect c s r s' w : unlock c s = (r, s', w) ->
  reader_queue s' = reader_queue s /\ writer_queue s' = writer_queue s
  /\ (owner s' = owner s \/ owner s' = SGX_THREAD_T_NULL).
Proof.
  unfold unlock. destruct (owner s =? c).
  - apply write_unlock_effect.
  - intros E. apply read_unlock_effect in E as (? & ? & ?). auto.
Qed.

Lemma sys_inv_same_queues s s' pcs :
  sys_inv (mkSys s pcs) ->
  reader_queue s' = reader_queue s -> writer_queue s' = writer_queue s ->
  (owner s' <> SGX_THREAD_T_NULL -> pcs (owner s') = Idle) ->
  sys_inv (mkSys s' pcs).
Proof.
  unfold sys_inv; simpl. intros (? & ? & ? & ? & _) -> -> Ho. auto.
Qed.

Lemma sys_step_inv_queues S S' : sys_inv S -> sys_step S S' -> sys_inv S'.
Proof.
  intros HI Hs.
  destruct Hs as
    [t S r s' Hi E | t S s' Hi E | t S r s' Hi E
    | t S r s' Hi E | t S s' Hi E | t S r s' Hi E
    | t S r s' Hi E | t S r s' Hi E | t S r s' wk Hi E
    | t S r s' wk Hi E | t S r s' wk Hi E | t S Hi];
  destruct S as [s pcs];
  pose proof HI as (Hrq & Hwq & Hr & Hw & Ho); simpl in *.
  - apply read_enter_return in E as (Er & Ew & Eo).
    apply (sys_inv_same_queues s); [exact HI|exact Er|exact Ew|rewrite Eo; exact Ho].
  - apply read_enter_park in E as (Er & Ew & Eo & Hn & Hne).
    assert (Htr : ~ In t (reader_queue s)) by (rewrite Hr; congruence).
    assert (Htw : ~ In t (writer_queue s)) by (rewrite Hw; congruence).
    destruct (push_back_spec _ t Hrq Htr) as [Hnd Hin].
    unfold sys_inv; simpl. rewrite Er, Ew, Eo.
    split; [exact Hnd|]. split; [exact Hwq|].
    split; [|split]; [intros x; rewrite Hin, upd_eq ..|intros x; rewrite upd_eq|].
    + destruct (Z.eqb_spec x t) as [->|Hx]; [tauto|rewrite Hr; intuition].
    + destruct (Z.eqb_spec x t) as [->|Hx]; [split; [tauto|discriminate]|apply Hw].
    + intros _. rewrite upd_eq.
      destruct (Z.eqb_spec (owner s) t); [contradiction|exact (Ho Hn)].
  - apply read_retry_return in E as (Er & Ew & Eo).
    destruct (remove_self_spec t _ Hrq) as [Hnd Hin].
    unfold sys_inv; simpl. rewrite Er, Ew, Eo.
    split; [exact Hnd|]. split; [exact Hwq|].
    split; [|split]; [intros x; rewrite Hin, upd_eq ..|intros x; rewrite upd_eq|].
    + destruct (Z.eqb_spec x t) as [->|Hx]; [split; [tauto|discriminate]|].
      rewrite Hr. tauto.
    + destruct (Z.eqb_spec x t) as [->|Hx]; [|apply Hw].
      rewrite Hw. split; congruence.
    + intros Hn. rewrite upd_eq.
      destruct (Z.eqb_spec (owner s) t); [reflexivity|exact (Ho Hn)].
  - apply write_enter_return in E as (Er & Ew & Eo).
    apply (sys_inv_same_queues s); [exact HI|exact Er|exact Ew|].
    intros Hn. destruct Eo as [Eo|Eo]; rewrite Eo in *; auto.
  - apply write_enter_park in E as (Er & Ew & Eo & Hne).
    assert (Htr : ~ In t (reader_queue s)) by (rewrite Hr; congruence).
    assert (Htw : ~ In t (writer_queue s)) by (rewrite Hw; congruence).
    destruct (push_back_spec _ t Hwq Htw) as [Hnd Hin].
    unfold sys_inv; simpl. rewrite Er, Ew, Eo.
    split; [exact Hrq|]. split; [exact Hnd|].
    split; [|split]; [intros x; rewrite upd_eq|intros x; rewrite Hin, upd_eq ..|].
    + destruct (Z.eqb_spec x t) as [->|Hx]; [split; [tauto|discriminate]|apply Hr].
    + destruct (Z.eqb_spec x t) as [->|Hx]; [tauto|rewrite Hw; intuition].
    + intros Hn. rewrite upd_eq.
      destruct (Z.eqb_spec (owner s) t); [contradiction|exact (Ho Hn)].
  - apply write_retry_return in E as (Er & Ew & Eo).
    destruct (remove_self_spec t _ Hwq) as [Hnd Hin].
    unfold sys_inv; simpl. rewrite Er, Ew, Eo.
    split; [exact Hrq|]. split; [exact Hnd|].
    split; [|split]; [intros x; rewrite upd_eq|intros x; rewrite Hin, upd_eq ..|].
    + destruct (Z.eqb_spec x t) as [->|Hx]; [|apply Hr].
      rewrite Hr. split; congruence.
    + destruct (Z.eqb_spec x t) as [->|Hx]; [split; [tauto|discriminate]|].
      rewrite Hw. tauto.
    + intros _. rewrite upd_eq, Z.eqb_refl. reflexivity.
  - apply try_read_effect in E as (Er & Ew & Eo).
    apply (sys_inv_same_queues s); [exact HI|exact Er|exact Ew|rewrite Eo; exact Ho].
  - apply try_write_effect in E as (Er & Ew & Eo).
    apply (sys_inv_same_queues s); [exact HI|exact Er|exact Ew|].
    intros Hn. destruct Eo as [Eo|Eo]; rewrite Eo in *; auto.
  - apply read_unlock_effect in E as (Er & Ew & Eo).
    apply (sys_inv_same_queues s); [exact HI|exact Er|exact Ew|rewrite Eo; exact Ho].
  - apply write_unlock_effect in E as (Er & Ew & Eo).
    apply (sys_inv_same_queues s); [exact HI|exact Er|exact Ew|].
    intros Hn. destruct Eo as [Eo|Eo]; rewrite Eo in *; auto; congruence.
  - apply unlock_effect in E as (Er & Ew & Eo).
    apply (sys_inv_same_queues s); [exact HI|exact Er|exact Ew|].
    intros Hn. destruct Eo as [Eo|Eo]; rewrite Eo in *; auto; congruence.
  - exact HI.
Qed.

Lemma reachable_sys_inv S : reachable S -> sys_inv S.
Proof.
  induction 1.
  - unfold sys_inv; simpl. repeat split; try constructor; try discriminate;
    intros []; discriminate.
  - eapply sys_step_inv_queues; eassumption.
Qed.

Lemma all_idle_queues_empty S :
  sys_inv S ->
  ((forall t, pc S t = Idle) <-> reader_queue (lk S) = [] /\ writer_queue (lk S) = []).
Proof.
  intros (_ & _ & Hr & Hw & _). split.
  - intros Hi. split.
    + destruct (reader_queue (lk S)) as [|t q] eqn:E; [reflexivity|].
      exfalso. assert (H : In t (t :: q)) by (left; reflexivity).
      apply Hr in H. rewrite Hi in H. discriminate.
    + destruct (writer_queue (lk S)) as [|t q] eqn:E; [reflexivity|].
      exfalso. assert (H : In t (t :: q)) by (left; reflexivity).
      apply Hw in H. rewrite Hi in H. discriminate.
  - intros [Er Ew] t. specialize (Hr t). specialize (Hw t).
    rewrite Er in Hr. rewrite Ew in Hw. simpl in *.
    destruct (pc S t); [reflexivity| |]; tauto.
Qed.

Lemma retry_readers_cons t ts s :
  retry_readers (t :: ts) s
  = match read_retry t s with
    | Return _ s' => retry_readers ts s'
    | Park _ => None
    end.
Proof. reflexivity. Qed.

Lemma retry_readers_all ts s :
  owner s = SGX_THREAD_T_NULL -> reader_queue s = ts ->
  0 <= reader_count s -> reader_count s + Z.of_nat (length ts) <= u32_MAX ->
  retry_readers ts s
  = Some (mkRwLockInner (reader_count s + Z.of_nat (length ts)) (writer_waiting s)
                        SGX_THREAD_T_NULL [] (writer_queue s)).
Proof.
  revert s. induction ts as [|t ts IH]; intros [n w o rq wq];
  cbn [owner reader_queue reader_count writer_queue writer_waiting];
  intros Ho Hq Hn Hb; subst.
  - simpl. rewrite Z.add_0_r. reflexivity.
  - cbn [length] in *. rewrite Nat2Z.inj_succ in *.
    rewrite retry_readers_cons. unfold read_retry, remove_self.
    simpl. rewrite !Z.eqb_refl. simpl.
    rewrite IH; cbn [owner reader_queue reader_count writer_queue writer_waiting
                     set_reader_count set_reader_queue];
      rewrite ?u32_add1_small by lia; try reflexivity; try lia.
    f_equal. f_equal. lia.
Qed.

Lemma is_locked_false_iff s :
  writer_waiting s = 0 ->
  (is_locked s = false
   <-> owner s = SGX_THREAD_T_NULL /\ reader_count s = 0
       /\ reader_queue s = [] /\ writer_queue s = []).
Proof.
  destruct s as [n w o rq wq]; unfold is_locked; simpl. intros ->.
  destruct (Z.eqb_spec o SGX_THREAD_T_NULL) as [Eo|Eo];
  destruct (Z.eqb_spec n 0) as [En|En]; destruct rq, wq; simpl;
  split; intros H; try discriminate; try tauto;
  destruct H as (H1 & H2 & H3 & H4); try discriminate; contradiction.
Qed.

(** X1. In every reachable state each wait queue lists exactly the threads
    parked in the corresponding blocking call, each thread at most once. *)
Theorem queues_hold_parked_threads S :
  reachable S ->
  NoDup (reader_queue (lk S)) /\ NoDup (writer_queue (lk S))
  /\ (forall t, In t (reader_queue (lk S)) <-> pc S t = ParkedRead)
  /\ (forall t, In t (writer_queue (lk S)) <-> pc S t = ParkedWrite).
Proof.
  intros HS. destruct (reachable_sys_inv S HS) as (H1 & H2 & H3 & H4 & _).
  auto.
Qed.

Lemma queues_hold_parked_threads_witness :
  reachable (mkSys (mkRwLockInner 0 0 5 [7] []) (upd (fun _ => Idle) 7 ParkedRead))
  /\ (In 7 [7] <-> upd (fun _ => Idle) 7 ParkedRead 7 = ParkedRead).
Proof.
  split; [exact reachable_held|].
  destruct (queues_hold_parked_threads _ reachable_held) as (_ & _ & H & _).
  exact (H 7).
Defined.

(** X2. In every reachable state no thread is in both wait queues. *)
Theorem queues_disjoint S :
  reachable S ->
  forall t, ~ (In t (reader_queue (lk S)) /\ In t (writer_queue (lk S))).
Proof.
  intros HS t [Hr Hw].
  destruct (reachable_sys_inv S HS) as (_ & _ & Hr' & Hw' & _).
  apply Hr' in Hr. apply Hw' in Hw. congruence.
Qed.

Lemma queues_disjoint_witness :
  reachable (mkSys (mkRwLockInner 0 0 5 [7] []) (upd (fun _ => Idle) 7 ParkedRead))
  /\ ~ (In 7 [7] /\ In 7 []).
Proof.
  split; [exact reachable_held|].
  exact (queues_disjoint _ reachable_held 7).
Defined.

(** X3. In every reachable state the exclusive holder is not parked
    inside [read] or [write]. *)
Theorem owner_never_parked S :
  reachable S -> owner (lk S) <> SGX_THREAD_T_NULL -> pc S (owner (lk S)) = Idle.
Proof.
  intros HS. destruct (reachable_sys_inv S HS) as (_ & _ & _ & _ & Ho). exact Ho.
Qed.

Lemma owner_never_parked_witness :
  reachable (mkSys (mkRwLockInner 0 0 5 [7] []) (upd (fun _ => Idle) 7 ParkedRead))
  /\ 5 <> SGX_THREAD_T_NULL /\ upd (fun _ => Idle) 7 ParkedRead 5 = Idle.
Proof.
  assert (Hn : 5 <> SGX_THREAD_T_NULL) by discriminate.
  split; [exact reachable_held|]. split; [exact Hn|].
  exact (owner_never_parked _ reachable_held Hn).
Defined.

(** X4. In every reachable state [destroy] succeeds (and [is_locked] is
    false) exactly when there is no owner, no reader, and no thread is
    parked in [read] or [write]. *)
Theorem destroy_ok_iff_all_idle S :
  reachable S ->
  (destroy (lk S) = Ok
   <-> owner (lk S) = SGX_THREAD_T_NULL /\ reader_count (lk S) = 0
       /\ forall t, pc S t = Idle)
  /\ (is_locked (lk S) = false
   <-> owner (lk S) = SGX_THREAD_T_NULL /\ reader_count (lk S) = 0
       /\ forall t, pc S t = Idle).
Proof.
  intros HS. destruct (reachable_inv S HS) as [_ [_ Hw]].
  assert (E : is_locked (lk S) = false
              <-> owner (lk S) = SGX_THREAD_T_NULL /\ reader_count (lk S) = 0
                  /\ forall t, pc S t = Idle).
  { rewrite (all_idle_queues_empty S (reachable_sys_inv S HS)).
    apply is_locked_false_iff. exact Hw. }
  split; [|exact E].
  rewrite <- E. unfold destroy.
  destruct (is_locked (lk S)); split; intros H; try reflexivity; discriminate.
Qed.

Lemma destroy_ok_iff_all_idle_witness :
  reachable init_sys /\ destroy new = Ok.
Proof.
  split; [exact reach_init|].
  apply (proj1 (destroy_ok_iff_all_idle init_sys reach_init)).
  split; [reflexivity|]. split; [reflexivity|]. intros; reflexivity.
Defined.

(** X5. On every reachable state, [<RwLock as LazyInit>::destroy] leaks
    the lock exactly when there is an owner, a reader, or a thread parked
    in [read] or [write]; otherwise it drops the lock, and the
    [debug_assert_eq!(r, Ok(()))] of [RwLock::drop] holds. *)
Theorem lazy_destroy_reachable S :
  reachable S ->
  (lazy_destroy (lk S) = Leaked
   <-> owner (lk S) <> SGX_THREAD_T_NULL \/ reader_count (lk S) <> 0
       \/ exists t, pc S t <> Idle)
  /\ (lazy_destroy (lk S) = Dropped true
   <-> owner (lk S) = SGX_THREAD_T_NULL /\ reader_count (lk S) = 0
       /\ forall t, pc S t = Idle)
  /\ lazy_destroy (lk S) <> Dropped false.
Proof.
  intros HS. destruct (reachable_inv S HS) as [_ [_ Hw]].
  pose proof (reachable_sys_inv S HS) as HI.
  pose proof (all_idle_queues_empty S HI) as Hi.
  pose proof (is_locked_false_iff (lk S) Hw) as Hf.
  destruct HI as (_ & _ & Hr & Hwq & _).
  unfold lazy_destroy, rwlock_drop, destroy.
  destruct (is_locked (lk S)) eqn:El.
  - split; [|split; [split; [discriminate|]|discriminate]].
    + split; [intros _|reflexivity].
      destruct (Z.eq_dec (owner (lk S)) SGX_THREAD_T_NULL) as [Eo|Eo]; [|left; exact Eo].
      destruct (Z.eq_dec (reader_count (lk S)) 0) as [Er|Er]; [|right; left; exact Er].
      right; right.
      destruct (reader_queue (lk S)) as [|t q] eqn:Eq.
      * destruct (writer_queue (lk S)) as [|t q] eqn:Ew.
        -- exfalso. assert (H : true = false) by (apply Hf; auto).
           discriminate.
        -- exists t. pose proof (proj1 (Hwq t) ltac:(left; reflexivity)). congruence.
      * exists t. pose proof (proj1 (Hr t) ltac:(left; reflexivity)). congruence.
    + intros H. rewrite Hi in H. apply Hf in H. congruence.
  - assert (Hq := proj1 Hf eq_refl). destruct Hq as (Eo & Er & Eq & Ew).
    assert (Ha : forall t, pc S t = Idle) by (apply Hi; auto).
    split; [|split; [split; [intros _; auto|reflexivity]|discriminate]].
    split; [discriminate|].
    intros [H|[H|[t H]]]; [contradiction|contradiction|].
    exfalso. exact (H (Ha t)).
Qed.

Lemma lazy_destroy_reachable_witness :
  reachable (mkSys (mkRwLockInner 0 0 5 [7] []) (upd (fun _ => Idle) 7 ParkedRead))
  /\ lazy_destroy (mkRwLockInner 0 0 5 [7] []) = Leaked.
Proof.
  split; [exact reachable_held|].
  apply (proj1 (lazy_destroy_reachable _ reachable_held)).
  left. discriminate.
Defined.

(** X6. A successful [try_write] followed by [write_unlock] (or [unlock])
    from the same thread succeeds and restores the state from before the
    [try_write] exactly. *)
Theorem try_write_unlock_roundtrip current s s1 :
  try_write current s = (Ok, s1) ->
  fst (fst (write_unlock current s1)) = Ok
  /\ snd (fst (write_unlock current s1)) = s
  /\ unlock current s1 = write_unlock current s1.
Proof.
  unfold try_write. destruct s as [n w o rq wq]; simpl.
  destruct (Z.eqb_spec o SGX_THREAD_T_NULL) as [->|]; simpl;
  [|intros H; discriminate].
  destruct (Z.eqb_spec n 0) as [->|]; simpl; [|intros H; discriminate].
  intros H. injection H as <-.
  unfold unlock, write_unlock. simpl. rewrite Z.eqb_refl. simpl.
  destruct rq; simpl; [destruct wq|]; repeat split.
Qed.

Lemma try_write_unlock_roundtrip_witness :
  try_write 5 (mkRwLockInner 0 0 0 [] [9]) = (Ok, mkRwLockInner 0 0 5 [] [9])
  /\ snd (fst (write_unlock 5 (mkRwLockInner 0 0 5 [] [9]))) = mkRwLockInner 0 0 0 [] [9].
Proof.
  assert (H : try_write 5 (mkRwLockInner 0 0 0 [] [9]) = (Ok, mkRwLockInner 0 0 5 [] [9]))
    by reflexivity.
  split; [exact H|]. exact (proj1 (proj2 (try_write_unlock_roundtrip _ _ _ H))).
Defined.

(** X7. A successful [try_read] followed by [read_unlock] restores the
    state exactly when the count was below [u32::MAX]; when it was
    [u32::MAX], the increment wrapped the count to [0] and the
    [read_unlock] is refused with [EPERM]. *)
Theorem try_read_unlock_roundtrip s s1 :
  try_read s = (Ok, s1) -> 0 <= reader_count s ->
  (reader_count s < u32_MAX ->
   fst (fst (read_unlock s1)) = Ok /\ snd (fst (read_unlock s1)) = s)
  /\ (reader_count s = u32_MAX -> read_unlock s1 = (Err EPERM, s1, NoWake)).
Proof.
  unfold try_read. destruct s as [n w o rq wq]; simpl.
  destruct (Z.eqb_spec o SGX_THREAD_T_NULL); [|intros H; discriminate].
  intros H Hn. injection H as <-. split.
  - intros Hlt. unfold read_unlock; simpl.
    rewrite u32_add1_small by lia.
    destruct (Z.eqb_spec (n + 1) 0); [lia|].
    rewrite u32_sub1_pos by (unfold u32_MAX in *; lia).
    replace (n + 1 - 1) with n by lia.
    destruct (n =? 0); [destruct wq|]; split; reflexivity.
  - intros ->. reflexivity.
Qed.

Lemma try_read_unlock_roundtrip_witness :
  try_read (mkRwLockInner 2 0 0 [] []) = (Ok, mkRwLockInner 3 0 0 [] [])
  /\ snd (fst (read_unlock (mkRwLockInner 3 0 0 [] []))) = mkRwLockInner 2 0 0 [] [].
Proof.
  assert (H : try_read (mkRwLockInner 2 0 0 [] []) = (Ok, mkRwLockInner 3 0 0 [] []))
    by reflexivity.
  split; [exact H|].
  refine (proj2 (proj1 (try_read_unlock_roundtrip _ _ H _) _)); simpl; unfold u32_MAX; lia.
Defined.

(** X8. When [write_unlock] broadcasts to the queued readers, the woken
    readers can retry one after the other in queue order and each of them
    acquires: afterwards [reader_queue] is empty, there is no owner, and
    [reader_count] has grown by the number of readers (as long as that
    stays within [u32]). *)
Theorem broadcast_admits_all_readers current s s1 ts :
  write_unlock current s = (Ok, s1, WakeMany ts) ->
  0 <= reader_count s -> reader_count s + Z.of_nat (length ts) <= u32_MAX ->
  ts = reader_queue s
  /\ retry_readers ts s1
     = Some (mkRwLockInner (reader_count s + Z.of_nat (length ts)) (writer_waiting s)
                           SGX_THREAD_T_NULL [] (writer_queue s)).
Proof.
  unfold write_unlock. destruct s as [n w o rq wq]; simpl.
  destruct (Z.eqb_spec o current); simpl; [|intros H; discriminate].
  destruct rq as [|r rq]; simpl; [destruct wq; discriminate|].
  intros H Hn Hb. injection H as <- <-. split; [reflexivity|].
  apply retry_readers_all; simpl; auto.
Qed.

Lemma broadcast_admits_all_readers_witness :
  write_unlock 5 (mkRwLockInner 0 0 5 [7; 8] [9])
  = (Ok, mkRwLockInner 0 0 0 [7; 8] [9], WakeMany [7; 8])
  /\ retry_readers [7; 8] (mkRwLockInner 0 0 0 [7; 8] [9])
     = Some (mkRwLockInner 2 0 0 [] [9]).
Proof.
  assert (H : write_unlock 5 (mkRwLockInner 0 0 5 [7; 8] [9])
              = (Ok, mkRwLockInner 0 0 0 [7; 8] [9], WakeMany [7; 8])) by reflexivity.
  split; [exact H|].
  refine (proj2 (broadcast_admits_all_readers _ _ _ _ H _ _)); simpl;
  unfold u32_MAX; lia.
Defined.

(** X9. The single writer woken on release is the front of
    [writer_queue], and it can take the lock at once.  After [read_unlock]
    drops the count to [0] with no owner, and after [write_unlock] with no
    queued reader and no reader count, the woken writer's retry succeeds,
    makes it the owner, and removes it from the front of the queue. *)
Theorem woken_writer_acquires s s1 w :
  ((read_unlock s = (Ok, s1, WakeOne w) -> owner s = SGX_THREAD_T_NULL ->
    exists rest, writer_queue s = w :: rest
      /\ write_retry w s1
         = Return Ok (mkRwLockInner 0 (writer_waiting s) w (reader_queue s) rest))
  /\ (forall current, write_unlock current s = (Ok, s1, WakeOne w) ->
      reader_count s = 0 ->
      exists rest, writer_queue s = w :: rest /\ reader_queue s = []
        /\ write_retry w s1
           = Return Ok (mkRwLockInner 0 (writer_waiting s) w [] rest))).
Proof.
  destruct s as [n ww o rq wq]. split.
  - unfold read_unlock; simpl.
    destruct (Z.eqb_spec n 0); [discriminate|]. simpl.
    destruct (Z.eqb_spec (u32_sub1 n) 0) as [Ez|]; [|discriminate].
    destruct wq as [|w' rest]; simpl; [discriminate|].
    intros H Ho. injection H as <- <-. subst o. exists rest. split; [reflexivity|].
    unfold write_retry, remove_self; simpl. rewrite Ez. simpl.
    rewrite Z.eqb_refl. reflexivity.
  - intros current. unfold write_unlock; simpl.
    destruct (Z.eqb_spec o current); simpl; [|discriminate].
    destruct rq; simpl; [|discriminate].
    destruct wq as [|w' rest]; simpl; [discriminate|].
    intros H Hn. injection H as <- <-. subst n. exists rest.
    split; [reflexivity|]. split; [reflexivity|].
    unfold write_retry, remove_self; simpl. rewrite Z.eqb_refl. reflexivity.
Qed.
